(** * chatapp: a shallow embedding of [chatapp-backend/chatapp.py]

    The development follows the source file top-down: Python text and the
    library calls the program makes on it ([str.replace], [html.escape],
    [str.zfill], [json.dumps]), the Redis commands it issues
    ([INCR], [RPUSH], [LRANGE], [PUBLISH]), then [encode_messages],
    [SendMessage.post], [handle_request] and the event loop of
    [WebSocketConnection.get]. *)

From Stdlib Require Import ZArith NArith List Bool Lia String Ascii.
From Stdlib Require Import Strings.Byte.
Import ListNotations.

Set Implicit Arguments.
Set Warnings "-register-all".
Local Open Scope Z_scope.

(* ================================================================== *)
(** ** Python text *)

Module PyStr.

(** A Python [str] is a sequence of Unicode code points. *)
Definition char := N.
Definition pystr := list char.

(** An ASCII literal of the source, as a [pystr]. *)
Definition lit (s : string) : pystr :=
  List.map N_of_ascii (list_ascii_of_string s).
Arguments lit s%_string.

Definition char_eqb (a b : char) : bool := N.eqb a b.

Fixpoint eqb (s t : pystr) : bool :=
  match s, t with
  | [], [] => true
  | a :: s', b :: t' => char_eqb a b && eqb s' t'
  | _, _ => false
  end.

(** [s.startswith(p)] *)
Fixpoint startswith (p s : pystr) : bool :=
  match p, s with
  | [], _ => true
  | a :: p', b :: s' => char_eqb a b && startswith p' s'
  | _ :: _, [] => false
  end.

(** [str.replace(old, new)] for a non-empty [old]: a left-to-right scan that
    replaces every non-overlapping occurrence.  [skip] counts the characters
    of a matched occurrence that are still to be dropped. *)
Fixpoint replace_scan (old new s : pystr) (skip : nat) : pystr :=
  match s with
  | [] => []
  | c :: s' =>
      match skip with
      | S k => replace_scan old new s' k
      | O =>
          if startswith old s
          then new ++ replace_scan old new s' (Nat.pred (List.length old))
          else c :: replace_scan old new s' 0
      end
  end.

(** With an empty [old], Python inserts [new] before every character and at
    the end. *)
Fixpoint replace_empty (new s : pystr) : pystr :=
  match s with
  | [] => new
  | c :: s' => new ++ c :: replace_empty new s'
  end.

Definition replace (old new s : pystr) : pystr :=
  match old with
  | [] => replace_empty new s
  | _ :: _ => replace_scan old new s 0
  end.

(** Decimal digit [d] (0..9) as a character. *)
Definition digit (d : Z) : char := Z.to_N (48 + d).

(** Decimal digits of a non-negative integer, most significant first.  Every
    division by ten removes at least one binary digit, so the number of
    binary digits is enough fuel. *)
Fixpoint digits_fuel (fuel : nat) (n : Z) : pystr :=
  match fuel with
  | O => [digit (n mod 10)]
  | S f =>
      if n <? 10 then [digit n]
      else digits_fuel f (n / 10) ++ [digit (n mod 10)]
  end.

Definition digits (n : Z) : pystr := digits_fuel (Z.to_nat (Z.log2 n)) n.

(** [str(n)] for an [int]. *)
Definition str (n : Z) : pystr :=
  if n <? 0 then lit "-" ++ digits (- n) else digits n.

(** [s.zfill(width)]: pads with ['0'] on the left, after a leading sign. *)
Definition zfill (width : nat) (s : pystr) : pystr :=
  let fill := repeat (digit 0) (width - List.length s) in
  match s with
  | c :: rest =>
      if char_eqb c 43%N || char_eqb c 45%N then c :: fill ++ rest
      else fill ++ s
  | [] => fill
  end.



End PyStr.

Import PyStr.


Import PyStr.

(* ================================================================== *)
(** ** [html.escape] *)

Module Html.

(** [html.escape(s)] with its default [quote=True]: five successive
    [str.replace] calls, the ampersand first. *)
Definition escape (s : pystr) : pystr :=
  let s := replace (lit "&") (lit "&amp;") s in
  let s := replace (lit "<") (lit "&lt;") s in
  let s := replace (lit ">") (lit "&gt;") s in
  let s := replace [34%N] (lit "&quot;") s in
  let s := replace (lit "'") (lit "&#x27;") s in
  s.

End Html.

(* ================================================================== *)
(** ** JSON *)

Module Json.

(** A Python [float]: not-a-number, an infinity, or the finite value
    [m * 2^e]. *)
Inductive pyfloat :=
| FNaN
| FInf (negative : bool)
| FFinite (m e : Z).

(** What [json.loads] returns. A JSON object becomes a [dict], kept here as
    the list of its items, looked up by key. *)
Inductive value :=
| JNull
| JBool (b : bool)
| JInt (n : Z)
| JFloat (f : pyfloat)
| JStr (s : pystr)
| JList (l : list value)
| JDict (items : list (pystr * value)).

Fixpoint lookup (k : pystr) (items : list (pystr * value)) : option value :=
  match items with
  | [] => None
  | (k', v) :: rest => if PyStr.eqb k k' then Some v else lookup k rest
  end.

(** Lower-case hexadecimal digit. *)
Definition hexdigit (d : N) : char :=
  (if d <? 10 then 48 + d else 87 + d)%N.

(** ['{0:04x}'.format(n)] for [n < 0x10000]. *)
Definition hex4 (n : N) : pystr :=
  [hexdigit ((n / 4096) mod 16); hexdigit ((n / 256) mod 16);
   hexdigit ((n / 16) mod 16); hexdigit (n mod 16)]%N.

Definition backslash : char := 92%N.

(** The replacement of one character inside a JSON string, as
    [json.encoder.encode_basestring_ascii] does it ([ensure_ascii] is on by
    default): the short escapes, printable ASCII unchanged, everything else
    as [\uXXXX], above the basic plane as a surrogate pair. *)
Definition escape_char (c : char) : pystr :=
  (if c =? 34 then [backslash; 34]
   else if c =? 92 then [backslash; backslash]
   else if c =? 10 then backslash :: lit "n"
   else if c =? 13 then backslash :: lit "r"
   else if c =? 9 then backslash :: lit "t"
   else if c =? 8 then backslash :: lit "b"
   else if c =? 12 then backslash :: lit "f"
   else if (32 <=? c) && (c <=? 126) then [c]
   else if c <? 65536 then backslash :: lit "u" ++ hex4 c
   else
     let n := c - 65536 in
     let s1 := N.lor 55296 (N.land (N.shiftr n 10) 1023) in
     let s2 := N.lor 56320 (N.land n 1023) in
     backslash :: lit "u" ++ hex4 s1 ++ backslash :: lit "u" ++ hex4 s2)%N.

Definition dumps_str (s : pystr) : pystr :=
  [34%N] ++ flat_map escape_char s ++ [34%N].

(** [sep.join(parts)] *)
Fixpoint join (sep : pystr) (parts : list pystr) : pystr :=
  match parts with
  | [] => []
  | [p] => p
  | p :: rest => p ++ sep ++ join sep rest
  end.

(** [json.dumps] of a [dict] from [str] to [str], in insertion order, with
    the default separators. *)
Definition dumps_dict (items : list (pystr * pystr)) : pystr :=
  lit "{"
  ++ join (lit ", ")
       (List.map (fun kv => dumps_str (fst kv) ++ lit ": " ++ dumps_str (snd kv))
          items)
  ++ lit "}".

(** [json.dumps] of a [list] of such dicts. *)
Definition dumps (l : list (list (pystr * pystr))) : pystr :=
  lit "[" ++ join (lit ", ") (List.map dumps_dict l) ++ lit "]".

End Json.

(* ================================================================== *)
(** ** [datetime] *)

Module Datetime.

Record datetime := mk_datetime {
  year : Z; month : Z; day : Z; hour : Z; minute : Z; second : Z
}.

(** A field printed on two decimal digits. *)
Definition two_digits (n : Z) : pystr :=
  [digit ((n / 10) mod 10); digit (n mod 10)].

(** [d.strftime('%x %X')].  The program never calls [locale.setlocale], so
    the interpreter formats times in the C locale, where [%x] is
    [%m/%d/%y] and [%X] is [%H:%M:%S]. *)
Definition strftime_x_X (d : datetime) : pystr :=
  two_digits (month d) ++ lit "/" ++ two_digits (day d) ++ lit "/"
  ++ two_digits (year d mod 100)
  ++ lit " "
  ++ two_digits (hour d) ++ lit ":" ++ two_digits (minute d) ++ lit ":"
  ++ two_digits (second d).

End Datetime.

(* ================================================================== *)
(** ** The application: constants, [Message], [encode_messages] *)

Import Datetime.

Module ChatApp.

Definition DEFAULT_NAME : pystr := lit "Jane Smith".
Definition DEFAULT_EMAIL : pystr := lit "janes@yorku.ca".
Definition DEFAULT_TOPIC : pystr := lit "chat".

Definition REDIS_CHANNEL : pystr := lit "messages".
Definition REDIS_ID_KEY : pystr := lit "id".
Definition REDIS_MESSAGES_KEY : pystr := lit "messages".

(** [class Message], with the attributes [post] sets on every instance. *)
Record Message := mk_Message {
  id : Z;
  name : pystr;
  email : pystr;
  date : datetime;
  topic : pystr;
  content : pystr
}.

(** The dict built for one message in the loop of [encode_messages]. *)
Definition encode_message (message : Message) : list (pystr * pystr) :=
  [ (lit "id", Html.escape (zfill 10 (str (id message))));
    (lit "name", Html.escape (name message));
    (lit "email", Html.escape (email message));
    (lit "date", Html.escape (strftime_x_X (date message)));
    (lit "topic", Html.escape (topic message));
    (lit "content",
      replace [10%N] (lit "<br>") (Html.escape (content message))) ].

(** [encode_messages(messages)]: the loop appends one dict per message to
    [messages_to_encode], which is then serialised. *)
Definition encode_messages (messages : list Message) : pystr :=
  let messages_to_encode :=
    fold_left (fun acc message => acc ++ [encode_message message])
      messages [] in
  Json.dumps messages_to_encode.

(* ================================================================== *)
(** ** Exceptions and the state the handlers act on *)

Definition bytes := list byte.

(** The Python exceptions the handlers can meet. *)
Inductive exn :=
| IOError | JSONDecodeError | KeyError | TypeError | ValueError
| OverflowError | IndexError.

(** [except IOError] catches [IOError] only: none of the others is one of
    its subclasses. *)
Definition is_IOError (e : exn) : bool :=
  match e with IOError => true | _ => false end.

(** What is passed to [uwsgi.websocket_send]: the text built by
    [encode_messages], or the bytes of a frame received from Redis. *)
Inductive ws_payload :=
| WsText (s : pystr)
| WsBytes (b : bytes).

(** The Redis server, reduced to what the program stores in it: the counter
    under [REDIS_ID_KEY] (an absent key counts as 0), the list under
    [REDIS_MESSAGES_KEY] (its items are pickled [Message]s, and unpickling
    gives the message back, so the messages themselves are kept), and the
    payloads published on [REDIS_CHANNEL].  Integers are mathematical; the
    server is taken to be reachable. *)
Record redis_db := mk_db {
  id_key : Z;
  messages_key : list Message;
  channel : list pystr
}.

Definition empty_db : redis_db := mk_db 0 [] [].

(** The state a handler runs in: the Redis server, the ranges requested from
    it with [LRANGE] so far, and the payloads passed to
    [uwsgi.websocket_send] so far, oldest first. *)
Record world := mk_world {
  db : redis_db;
  fetched : list (Z * Z);
  sent : list ws_payload
}.

Definition initial_world : world := mk_world empty_db [] [].

Inductive result (A : Type) :=
| Ok (a : A)
| Raise (e : exn).
Arguments Ok {A} a.
Arguments Raise {A} e.

(** Computations that read and update the [world] and may raise. *)
Definition M (A : Type) : Type := world -> result A * world.

Definition ret {A} (a : A) : M A := fun w => (Ok a, w).
Definition raise {A} (e : exn) : M A := fun w => (Raise e, w).
Definition bind {A B} (m : M A) (k : A -> M B) : M B :=
  fun w =>
    match m w with
    | (Ok a, w') => k a w'
    | (Raise e, w') => (Raise e, w')
    end.

Notation "x <- m ;; k" := (bind m (fun x => k))
  (at level 61, m at next level, right associativity).
Notation "m ;;; k" := (bind m (fun _ => k))
  (at level 61, right associativity).

(** [try: body  except IOError: handler] *)
Definition try_except_IOError {A} (body handler : M A) : M A :=
  fun w =>
    match body w with
    | (Raise e, w') => if is_IOError e then handler w' else (Raise e, w')
    | r => r
    end.

(* ------------------------------------------------------------------ *)
(** *** Redis commands *)

(** [LRANGE key start stop] on a list: both ends inclusive, a negative index
    counts from the tail, out-of-range ends are clipped. *)
Definition lrange_list {A} (l : list A) (start stop : Z) : list A :=
  let llen := Z.of_nat (List.length l) in
  let start := if start <? 0 then llen + start else start in
  let stop := if stop <? 0 then llen + stop else stop in
  let start := if start <? 0 then 0 else start in
  if (start >? stop) || (start >=? llen) then []
  else
    let stop := if stop >=? llen then llen - 1 else stop in
    firstn (Z.to_nat (stop - start + 1)) (skipn (Z.to_nat start) l).

(** [r.incr(REDIS_ID_KEY)] *)
Definition incr : M Z :=
  fun w =>
    let d := db w in
    let n := id_key d + 1 in
    (Ok n, mk_world (mk_db n (messages_key d) (channel d)) (fetched w) (sent w)).

(** [r.rpush(REDIS_MESSAGES_KEY, pickle.dumps(message))] *)
Definition rpush (message : Message) : M unit :=
  fun w =>
    let d := db w in
    (Ok tt,
     mk_world (mk_db (id_key d) (messages_key d ++ [message]) (channel d))
       (fetched w) (sent w)).

(** [r.publish(REDIS_CHANNEL, payload)] *)
Definition publish (payload : pystr) : M unit :=
  fun w =>
    let d := db w in
    (Ok tt,
     mk_world (mk_db (id_key d) (messages_key d) (channel d ++ [payload]))
       (fetched w) (sent w)).

(** [r.lrange(REDIS_MESSAGES_KEY, first, last)] *)
Definition lrange (first last : Z) : M (list Message) :=
  fun w =>
    (Ok (lrange_list (messages_key (db w)) first last),
     mk_world (db w) (fetched w ++ [(first, last)]) (sent w)).

(* ------------------------------------------------------------------ *)
(** *** [SendMessage.post] *)

(** The parameters of a request, in the order received; a name may occur
    several times. *)
Definition request := list (pystr * pystr).

(** [self.request.get(argument_name, default_value)]: the first value given
    for the name, the default when there is none. *)
Fixpoint request_get (req : request) (argument_name default_value : pystr)
  : pystr :=
  match req with
  | [] => default_value
  | (k, v) :: rest =>
      if PyStr.eqb k argument_name then v
      else request_get rest argument_name default_value
  end.

(** The message [post] fills in before it asks Redis for an id; [id] still
    has the class default. *)
Definition new_message (req : request) (now : datetime) : Message :=
  let topic := request_get req (lit "topic") DEFAULT_TOPIC in
  mk_Message 0
    (request_get req (lit "name") DEFAULT_NAME)
    (request_get req (lit "email") DEFAULT_EMAIL)
    now
    topic
    (request_get req (lit "content") []).

Definition set_id (message : Message) (n : Z) : Message :=
  mk_Message n (name message) (email message) (date message)
    (topic message) (content message).

(** [SendMessage.post]; [now] is what [datetime.datetime.now()] returns. *)
Definition post (req : request) (now : datetime) : M unit :=
  let message := new_message req now in
  n <- incr ;;
  let message := set_id message n in
  rpush message ;;;
  publish (encode_messages [message]).

(** A sequence of ingest calls, one after the other. *)
Fixpoint posts (calls : list (request * datetime)) : M unit :=
  match calls with
  | [] => ret tt
  | (req, now) :: rest => post req now ;;; posts rest
  end.

(* ------------------------------------------------------------------ *)
(** *** [WebSocketConnection.get] *)

(** One element of the list [channel.parse_response()] returns. *)
Inductive resp :=
| RBytes (b : bytes)
| RInt (n : Z)
| RNone.

(** What the outside world does during one iteration of the loop: which
    descriptor [uwsgi.ready_fd()] reports (negative on timeout), what
    [uwsgi.websocket_recv_nb()] returns ([None] when it raises [IOError],
    the empty bytes when no frame is pending), the frame
    [channel.parse_response()] reads, and whether [uwsgi.websocket_send]
    raises [IOError]. *)
Record io := mk_io {
  ready_fd : Z;
  websocket_recv_nb : option bytes;
  parse_response : list resp;
  send_fails : bool
}.

(** The descriptors obtained before the loop starts. *)
Record session := mk_session {
  websocket_fd : Z;
  redis_fd : Z
}.

(** Where the loop stands after an iteration. *)
Inductive state :=
| WAITING
| TERMINATED.

Definition bytes_eqb (a b : bytes) : bool :=
  if list_eq_dec Byte.byte_eq_dec a b then true else false.

Definition b_message : bytes := list_byte_of_string "message".

(** [uwsgi.websocket_send(payload)]: the call is recorded, then it may
    fail. *)
Definition websocket_send (env : io) (payload : ws_payload) : M unit :=
  fun w =>
    let w' := mk_world (db w) (fetched w) (sent w ++ [payload]) in
    if send_fails env then (Raise IOError, w') else (Ok tt, w').

(** [int(x)] on a float: truncation towards zero. *)
Definition int_of_float (f : Json.pyfloat) : result Z :=
  match f with
  | Json.FNaN => Raise ValueError
  | Json.FInf _ => Raise OverflowError
  | Json.FFinite m e =>
      Ok (if 0 <=? e then m * 2 ^ e else Z.quot m (2 ^ (- e)))
  end.

Definition lift {A} (r : result A) : M A := fun w => (r, w).

Section Session.

(** [json.loads] on a frame: [None] when it raises (its [JSONDecodeError]
    and the decoding errors are all [ValueError]s). *)
Variable json_loads : bytes -> option Json.value.

(** [int(s)] on a [str]: [None] when [s] is not an integer literal. *)
Variable int_of_str : pystr -> option Z.

Definition loads (msg : bytes) : result Json.value :=
  match json_loads msg with
  | Some v => Ok v
  | None => Raise JSONDecodeError
  end.

(** [request[key]] *)
Definition getitem (request : Json.value) (key : pystr) : result Json.value :=
  match request with
  | Json.JDict items =>
      match Json.lookup key items with
      | Some v => Ok v
      | None => Raise KeyError
      end
  | _ => Raise TypeError
  end.

(** [int(x)] *)
Definition int (x : Json.value) : result Z :=
  match x with
  | Json.JInt n => Ok n
  | Json.JBool b => Ok (if b then 1 else 0)
  | Json.JFloat f => int_of_float f
  | Json.JStr s =>
      match int_of_str s with
      | Some n => Ok n
      | None => Raise ValueError
      end
  | Json.JNull | Json.JList _ | Json.JDict _ => Raise TypeError
  end.

(** [handle_request(r, msg)] *)
Definition handle_request (env : io) (msg : bytes) : M unit :=
  request <- lift (loads msg) ;;
  x <- lift (getitem request (lit "first_id")) ;;
  first <- lift (int x) ;;
  y <- lift (getitem request (lit "last_id")) ;;
  last <- lift (int y) ;;
  let first :=
    if ((last >? 0) && (last - 50 >? first)) || (last <? 0)
    then last - 50 else first in
  pickled_messages <- lrange first last ;;
  let messages :=
    fold_left (fun acc message => acc ++ [message]) pickled_messages [] in
  websocket_send env (WsText (encode_messages messages)).

(** [msg = uwsgi.websocket_recv_nb()] followed by
    [if msg: handle_request(r, msg)], as both branches of the loop have
    it inside their [try]. *)
Definition recv_and_handle (env : io) : M unit :=
  msg <- (match websocket_recv_nb env with
          | Some b => ret b
          | None => raise IOError
          end) ;;
  match msg with
  | [] => ret tt
  | _ :: _ => handle_request env msg
  end.

(** [msg[i]] on the list read from Redis. *)
Definition resp_item (msg : list resp) (i : nat) : result resp :=
  match nth_error msg i with
  | Some x => Ok x
  | None => Raise IndexError
  end.

Definition is_message (x : resp) : bool :=
  match x with
  | RBytes b => bytes_eqb b b_message
  | _ => false
  end.

(** [uwsgi.websocket_send(msg[2])] *)
Definition forward (env : io) (x : resp) : M unit :=
  match x with
  | RBytes b => websocket_send env (WsBytes b)
  | _ => raise TypeError
  end.

(** The body of [while True:], after [uwsgi.suspend()] has returned. *)
Definition iteration (s : session) (env : io) : M state :=
  let fd := ready_fd env in
  if fd >? -1 then
    if fd =? websocket_fd s then
      try_except_IOError
        (recv_and_handle env ;;; ret WAITING)
        (ret TERMINATED)
    else if fd =? redis_fd s then
      let msg := parse_response env in
      kind <- lift (resp_item msg 0) ;;
      if is_message kind then
        payload <- lift (resp_item msg 2) ;;
        forward env payload ;;; ret WAITING
      else ret WAITING
    else ret WAITING
  else
    try_except_IOError
      (recv_and_handle env ;;; ret WAITING)
      (ret TERMINATED).

(** The loop, run against what the outside world does in each iteration.
    It leaves [get] when an iteration returns or raises; at the end of the
    given iterations it is suspended, still [WAITING]. *)
Fixpoint loop (s : session) (envs : list io) : M state :=
  match envs with
  | [] => ret WAITING
  | env :: rest =>
      st <- iteration s env ;;
      match st with
      | WAITING => loop s rest
      | TERMINATED => ret TERMINATED
      end
  end.

End Session.

End ChatApp.

Import ChatApp.

(* ================================================================== *)
(** ** Specification-side definitions *)

(** The replacement [html.escape] makes for one character. *)
Definition escape_char (x : char) : pystr :=
  (if x =? 38 then lit "&amp;"
   else if x =? 60 then lit "&lt;"
   else if x =? 62 then lit "&gt;"
   else if x =? 34 then lit "&quot;"
   else if x =? 39 then lit "&#x27;"
   else [x])%N.

(** The [content] field character by character: a newline becomes the
    line-break marker, any other character is escaped. *)
Definition content_char (x : char) : pystr :=
  (if x =? 10 then lit "<br>" else escape_char x)%N.

(** The [content] field of the encoded message, as the source computes it. *)
Definition content_field (content : pystr) : pystr :=
  replace [10%N] (lit "<br>") (Html.escape content).

(** The [id] field of the encoded message, as the source computes it. *)
Definition id_field (n : Z) : pystr := Html.escape (zfill 10 (str n)).


(* ================================================================== *)
(** ** Text lemmas *)

Lemma char_eqb_eq (a b : char) : char_eqb a b = true <-> a = b.
Proof. unfold char_eqb. apply N.eqb_eq. Qed.

Lemma flat_map_flat_map {A B C} (f : A -> list B) (g : B -> list C) (l : list A) :
  flat_map g (flat_map f l) = flat_map (fun x => flat_map g (f x)) l.
Proof.
  induction l as [|a l IH]; simpl; [reflexivity|].
  now rewrite flat_map_app, IH.
Qed.

Lemma neqb_false (c x : char) : x <> c -> (c =? x)%N = false.
Proof. intro H. apply N.eqb_neq. congruence. Qed.

(** Replacing a one-character pattern works character by character. *)
Lemma replace_char (c : char) (new s : pystr) :
  replace [c] new s = flat_map (fun x => if char_eqb c x then new else [x]) s.
Proof.
  unfold replace.
  induction s as [|x s IH]; simpl; [reflexivity|].
  rewrite andb_true_r.
  destruct (char_eqb c x); simpl; now rewrite IH.
Qed.

Lemma escape_flat_map (s : pystr) : Html.escape s = flat_map escape_char s.
Proof.
  unfold Html.escape.
  change (lit "&") with [38%N]. change (lit "<") with [60%N].
  change (lit ">") with [62%N]. change (lit "'") with [39%N].
  rewrite !replace_char, !flat_map_flat_map.
  apply flat_map_ext. intro x.
  unfold escape_char, char_eqb.
  destruct (N.eqb_spec x 38) as [->|H38]; [reflexivity|].
  destruct (N.eqb_spec x 60) as [->|H60]; [reflexivity|].
  destruct (N.eqb_spec x 62) as [->|H62]; [reflexivity|].
  destruct (N.eqb_spec x 34) as [->|H34]; [reflexivity|].
  destruct (N.eqb_spec x 39) as [->|H39]; [reflexivity|].
  repeat (rewrite neqb_false by assumption; cbn [flat_map app]).
  reflexivity.
Qed.

Lemma escape_char_no_markup (x c : char) :
  In c (escape_char x) -> c <> 60%N /\ c <> 62%N /\ c <> 10%N \/ x = 10%N /\ c = 10%N.
Proof.
  unfold escape_char.
  destruct (N.eqb_spec x 38) as [->|H38];
    [simpl; intros H; left; repeat split; intros ->; intuition discriminate|].
  destruct (N.eqb_spec x 60) as [->|H60];
    [simpl; intros H; left; repeat split; intros ->; intuition discriminate|].
  destruct (N.eqb_spec x 62) as [->|H62];
    [simpl; intros H; left; repeat split; intros ->; intuition discriminate|].
  destruct (N.eqb_spec x 34) as [->|H34];
    [simpl; intros H; left; repeat split; intros ->; intuition discriminate|].
  destruct (N.eqb_spec x 39) as [->|H39];
    [simpl; intros H; left; repeat split; intros ->; intuition discriminate|].
  simpl. intros [<-|[]].
  destruct (N.eq_dec x 10) as [->|H10]; [right; auto|left; auto].
Qed.

Lemma content_field_flat_map (s : pystr) :
  content_field s = flat_map content_char s.
Proof.
  unfold content_field.
  rewrite replace_char, escape_flat_map, flat_map_flat_map.
  apply flat_map_ext. intro x.
  unfold content_char, char_eqb.
  destruct (N.eqb_spec x 10) as [->|H10]; [reflexivity|].
  assert (Hx : forall c, In c (escape_char x) -> c <> 10%N).
  { intros c Hc. destruct (escape_char_no_markup x c Hc) as [[_ [_ H]]|[H _]];
      [assumption|contradiction]. }
  induction (escape_char x) as [|c l IH]; cbn [flat_map]; [reflexivity|].
  rewrite (neqb_false (Hx c (or_introl eq_refl))).
  cbn [app]. f_equal. apply IH. intros d Hd. apply Hx. now right.
Qed.







(* ------------------------------------------------------------------ *)
(** *** Decimal strings *)

(** Characters [html.escape] leaves alone. *)
Definition plain (c : char) : Prop := escape_char c = [c].

Lemma escape_plain (s : pystr) : Forall plain s -> Html.escape s = s.
Proof.
  rewrite escape_flat_map.
  induction 1 as [|c s Hc _ IH]; simpl; [reflexivity|].
  rewrite Hc, IH. reflexivity.
Qed.

Definition is_digit (c : char) : Prop := (48 <= c <= 57)%N.

Lemma digit_is_digit (d : Z) : 0 <= d < 10 -> is_digit (digit d).
Proof. unfold is_digit, digit. lia. Qed.

Lemma is_digit_plain (c : char) : is_digit c -> plain c.
Proof.
  unfold is_digit, plain, escape_char. intros H.
  repeat match goal with
         | |- context [(c =? ?k)%N] =>
             destruct (N.eqb_spec c k); [lia|]
         end.
  reflexivity.
Qed.

Lemma digits_fuel_digits (f : nat) (n : Z) :
  0 <= n -> Forall is_digit (digits_fuel f n).
Proof.
  revert n. induction f as [|f IH]; intros n Hn; simpl.
  - constructor; [|constructor]. apply digit_is_digit. apply Z.mod_pos_bound. lia.
  - destruct (Z.ltb_spec n 10).
    + constructor; [|constructor]. apply digit_is_digit. lia.
    + apply Forall_app. split.
      * apply IH. apply Z.div_pos; lia.
      * constructor; [|constructor]. apply digit_is_digit.
        apply Z.mod_pos_bound. lia.
Qed.

Lemma digits_fuel_nonempty (f : nat) (n : Z) : digits_fuel f n <> [].
Proof.
  destruct f; simpl; [discriminate|].
  destruct (n <? 10); [discriminate|].
  intro H. apply app_eq_nil in H. destruct H; discriminate.
Qed.





Lemma digits_fuel_enough (n : Z) :
  0 <= n -> 0 <= n < 2 ^ (Z.of_nat (Z.to_nat (Z.log2 n)) + 1).
Proof.
  intro Hn. split; [assumption|].
  rewrite Z2Nat.id by apply Z.log2_nonneg.
  destruct (Z.eq_dec n 0) as [->|Hz]; [reflexivity|].
  apply Z.log2_spec. lia.
Qed.

Lemma zfill_digits (w : nat) (s : pystr) :
  s <> [] -> Forall is_digit s ->
  zfill w s = repeat (digit 0) (w - List.length s) ++ s.
Proof.
  intros Hne Hd. unfold zfill. destruct s as [|c rest]; [congruence|].
  inversion Hd as [|? ? Hc _]; subst. unfold is_digit in Hc. unfold char_eqb.
  destruct (N.eqb_spec c 43); [lia|]. destruct (N.eqb_spec c 45); [lia|].
  reflexivity.
Qed.


(* ------------------------------------------------------------------ *)
(** *** Lexicographic order of fixed-width numerals *)





Lemma Forall_digit_plain (s : pystr) : Forall is_digit s -> Forall plain s.
Proof. apply Forall_impl. exact is_digit_plain. Qed.



(* ------------------------------------------------------------------ *)
(** *** The escapes that change nothing *)

Lemma minus_plain : plain 45%N.
Proof. reflexivity. Qed.

Lemma str_plain (n : Z) : Forall plain (str n).
Proof.
  unfold str. destruct (Z.ltb_spec n 0).
  - constructor; [exact minus_plain|].
    apply Forall_digit_plain, digits_fuel_digits. lia.
  - apply Forall_digit_plain, digits_fuel_digits. assumption.
Qed.

Lemma zfill_plain (w : nat) (s : pystr) : Forall plain s -> Forall plain (zfill w s).
Proof.
  intro Hs. unfold zfill.
  assert (Hfill : forall k, Forall plain (repeat (digit 0) k)).
  { intro k. induction k; simpl; constructor; [reflexivity|assumption]. }
  destruct s as [|c rest]; [apply Hfill|].
  destruct (char_eqb c 43%N || char_eqb c 45%N).
  - inversion Hs; subst. constructor; [assumption|].
    apply Forall_app. split; [apply Hfill|assumption].
  - apply Forall_app. split; [apply Hfill|assumption].
Qed.



Lemma append_loop_map {A B} (f : A -> B) (l : list A) (acc : list B) :
  fold_left (fun acc x => acc ++ [f x]) l acc = acc ++ List.map f l.
Proof.
  revert acc. induction l as [|x l IH]; intro acc; simpl.
  - now rewrite app_nil_r.
  - rewrite IH, <- app_assoc. reflexivity.
Qed.





(* ================================================================== *)
(** ** Ingest *)

Lemma pystr_eqb_eq (s t : pystr) : PyStr.eqb s t = true <-> s = t.
Proof.
  revert t. induction s as [|a s IH]; intros [|b t]; simpl;
    try (split; [discriminate|congruence]); [tauto|].
  rewrite andb_true_iff, char_eqb_eq, IH. split.
  - intros [-> ->]. reflexivity.
  - intros H. injection H. auto.
Qed.

(** The request gives [v] for the parameter [k]: [v] is the first value
    received under that name. *)
Definition gives (req : request) (k v : pystr) : Prop :=
  exists before after,
    req = before ++ (k, v) :: after /\ ~ In k (List.map fst before).

(** The request has no parameter named [k]. *)
Definition absent (req : request) (k : pystr) : Prop :=
  ~ In k (List.map fst req).

Lemma request_get_gives (req : request) (k v default : pystr) :
  gives req k v -> request_get req k default = v.
Proof.
  intros [before [after [-> Hnot]]].
  induction before as [|[k' v'] before IH]; simpl.
  - now rewrite (proj2 (pystr_eqb_eq k k) eq_refl).
  - destruct (PyStr.eqb k' k) eqn:E.
    + apply pystr_eqb_eq in E. subst. exfalso. apply Hnot. now left.
    + apply IH. intro H. apply Hnot. now right.
Qed.

Lemma request_get_absent (req : request) (k default : pystr) :
  absent req k -> request_get req k default = default.
Proof.
  unfold absent. induction req as [|[k' v'] req IH]; simpl; intro Hnot.
  - reflexivity.
  - destruct (PyStr.eqb k' k) eqn:E.
    + apply pystr_eqb_eq in E. subst. exfalso. apply Hnot. now left.
    + apply IH. intro H. apply Hnot. now right.
Qed.

(** The messages a run of ingest calls stores, the first one under the id
    [start]. *)
Fixpoint stamped (start : Z) (calls : list (request * datetime)) : list Message :=
  match calls with
  | [] => []
  | (req, now) :: rest =>
      set_id (new_message req now) start :: stamped (start + 1) rest
  end.

Lemma post_run (req : request) (now : datetime) (w : world) :
  post req now w
  = (Ok tt,
     let m := set_id (new_message req now) (id_key (db w) + 1) in
     mk_world
       (mk_db (id_key (db w) + 1) (messages_key (db w) ++ [m])
          (channel (db w) ++ [encode_messages [m]]))
       (fetched w) (sent w)).
Proof. reflexivity. Qed.

Lemma posts_run (calls : list (request * datetime)) :
  forall w,
    posts calls w
    = (Ok tt,
       let ms := stamped (id_key (db w) + 1) calls in
       mk_world
         (mk_db (id_key (db w) + Z.of_nat (List.length calls))
            (messages_key (db w) ++ ms)
            (channel (db w) ++ List.map (fun m => encode_messages [m]) ms))
         (fetched w) (sent w)).
Proof.
  induction calls as [|[req now] calls IH]; intros [[c l p] f s].
  - cbn -[Z.add]. now rewrite Z.add_0_r, !app_nil_r.
  - cbn [posts]. unfold bind at 1. rewrite post_run.
    cbv zeta. rewrite IH. cbn [db id_key messages_key channel fetched sent].
    cbn [stamped List.map List.length].
    rewrite <- !app_assoc. cbn [app].
    do 3 f_equal. lia.
Qed.

Lemma stamped_ids (calls : list (request * datetime)) :
  forall start,
    List.map id (stamped start calls)
    = List.map (fun k => start + Z.of_nat k) (seq 0 (List.length calls)).
Proof.
  induction calls as [|[req now] calls IH]; intro start; [reflexivity|].
  cbn [stamped List.map List.length seq]. rewrite IH.
  f_equal; [simpl; lia|].
  rewrite <- seq_shift, map_map. apply map_ext. intro k. lia.
Qed.

Lemma stamped_length (calls : list (request * datetime)) (start : Z) :
  List.length (stamped start calls) = List.length calls.
Proof.
  revert start. induction calls as [|[req now] calls IH]; intro start;
    simpl; [reflexivity|]. now rewrite IH.
Qed.

Lemma stamped_nth (calls : list (request * datetime)) :
  forall start k m,
    nth_error (stamped start calls) k = Some m -> id m = start + Z.of_nat k.
Proof.
  induction calls as [|[req now] calls IH]; intros start k m H.
  - destruct k; discriminate.
  - destruct k as [|k]; simpl in H.
    + injection H as <-. simpl. lia.
    + apply IH in H. lia.
Qed.

(** C3. After any [N] ingest calls on an empty store, every call has
    returned, the counter stands at [N], the log holds [N] messages whose
    ids, read in log order, are 1, 2, ..., [N] (so each of 1..[N] is assigned
    exactly once), and the message at 1-based position [k] has id [k]. *)
Theorem ingest_ids_gapless (calls : list (request * datetime)) :
  let N := List.length calls in
  let out := posts calls initial_world in
  let log := messages_key (db (snd out)) in
  fst out = Ok tt
  /\ id_key (db (snd out)) = Z.of_nat N
  /\ List.length log = N
  /\ List.map id log = List.map Z.of_nat (seq 1 N)
  /\ (forall k m, nth_error log k = Some m -> id m = Z.of_nat k + 1).
Proof.
  cbv zeta. rewrite posts_run. cbn [fst snd db id_key messages_key initial_world empty_db].
  cbn [app]. change (0 + 1) with 1.
  repeat split.
  - apply stamped_length.
  - rewrite stamped_ids, <- seq_shift, map_map. apply map_ext. intro k. lia.
  - intros k m H. apply stamped_nth in H. lia.
Qed.

(** C8. The message an ingest call stores takes [name], [email] and [topic]
    from the request when it gives them, and is otherwise "Jane Smith",
    "janes@yorku.ca" and "chat"; its [content] is the request's, and empty
    when the request has none. *)
Theorem post_fills_defaults (req : request) (now : datetime) (w : world) :
  exists m,
    post req now w
    = (Ok tt,
       mk_world
         (mk_db (id m) (messages_key (db w) ++ [m])
            (channel (db w) ++ [encode_messages [m]]))
         (fetched w) (sent w))
    /\ (forall v, gives req (lit "name") v -> name m = v)
    /\ (absent req (lit "name") -> name m = lit "Jane Smith")
    /\ (forall v, gives req (lit "email") v -> email m = v)
    /\ (absent req (lit "email") -> email m = lit "janes@yorku.ca")
    /\ (forall v, gives req (lit "topic") v -> topic m = v)
    /\ (absent req (lit "topic") -> topic m = lit "chat")
    /\ (forall v, gives req (lit "content") v -> content m = v)
    /\ (absent req (lit "content") -> content m = []).
Proof.
  exists (set_id (new_message req now) (id_key (db w) + 1)).
  split; [apply post_run|].
  cbn [set_id new_message name email topic content].
  repeat split; intros;
    first [ apply request_get_gives; assumption
          | apply request_get_absent; assumption ].
Qed.

Lemma post_fills_defaults_witness :
  exists m,
    post [(lit "name", lit "A"); (lit "content", lit "hi")]
      (mk_datetime 2023 1 21 14 5 9) initial_world
    = (Ok tt,
       mk_world (mk_db (id m) [m] [encode_messages [m]]) [] [])
    /\ name m = lit "A"
    /\ email m = lit "janes@yorku.ca"
    /\ topic m = lit "chat"
    /\ content m = lit "hi".
Proof.
  destruct (post_fills_defaults
              [(lit "name", lit "A"); (lit "content", lit "hi")]
              (mk_datetime 2023 1 21 14 5 9) initial_world)
    as [m [Hrun [Hn [_ [_ [He [_ [Ht [Hc _]]]]]]]]].
  exists m. split; [exact Hrun|]. repeat split.
  - apply Hn. exists [], [(lit "content", lit "hi")]. split; [reflexivity|].
    simpl. tauto.
  - apply He. unfold absent. simpl. intros [H|[H|[]]]; discriminate H.
  - apply Ht. unfold absent. simpl. intros [H|[H|[]]]; discriminate H.
  - apply Hc. exists [(lit "name", lit "A")], []. split; [reflexivity|].
    simpl. intros [H|[]]; discriminate H.
Defined.

(* ================================================================== *)
(** ** The connection session *)

Section SessionProperties.

Variable json_loads : bytes -> option Json.value.
Variable int_of_str : pystr -> option Z.

Local Abbreviation handle_request := (handle_request json_loads int_of_str).
Local Abbreviation iteration := (iteration json_loads int_of_str).
Local Abbreviation loop := (loop json_loads int_of_str).

(** The first five statements of [handle_request]: the frame read as a
    request [(first_id, last_id)], or the exception raised on the way. *)
Definition parsed_request (msg : bytes) : result (Z * Z) :=
  match loads json_loads msg with
  | Raise e => Raise e
  | Ok request =>
      match getitem request (lit "first_id") with
      | Raise e => Raise e
      | Ok x =>
          match int int_of_str x with
          | Raise e => Raise e
          | Ok first =>
              match getitem request (lit "last_id") with
              | Raise e => Raise e
              | Ok y =>
                  match int int_of_str y with
                  | Raise e => Raise e
                  | Ok last => Ok (first, last)
                  end
              end
          end
      end
  end.

(** The lower end [handle_request] asks Redis for. *)
Definition fetched_first (first last : Z) : Z :=
  if ((last >? 0) && (last - 50 >? first)) || (last <? 0)
  then last - 50 else first.


Lemma handle_request_run (env : io) (msg : bytes) (first last : Z) (w : world) :
  parsed_request msg = Ok (first, last) ->
  handle_request env msg w
  = (if send_fails env then Raise IOError else Ok tt,
     let first' := fetched_first first last in
     mk_world (db w) (fetched w ++ [(first', last)])
       (sent w
        ++ [WsText (encode_messages
                      (lrange_list (messages_key (db w)) first' last))])).
Proof.
  unfold parsed_request, handle_request, bind, lift. intro H.
  destruct (loads json_loads msg) as [request|e0]; [|discriminate].
  destruct (getitem request (lit "first_id")) as [x|e0]; [|discriminate].
  destruct (int int_of_str x) as [first0|e0]; [|discriminate].
  destruct (getitem request (lit "last_id")) as [y|e0]; [|discriminate].
  destruct (int int_of_str y) as [last0|e0]; [|discriminate].
  injection H as -> ->.
  unfold lrange, websocket_send. cbn [db fetched sent].
  rewrite append_loop_map. cbn [app]. rewrite map_id.
  unfold fetched_first. destruct (send_fails env); reflexivity.
Qed.





(** C1. For a well-formed request, the one range [handle_request] fetches
    is [last_id - 50 .. last_id] when [last_id > 0] and
    [last_id - first_id > 50], also [last_id - 50 .. last_id] when
    [last_id < 0], and [first_id .. last_id] as given in every other
    case. *)
Theorem backfill_window (env : io) (msg : bytes) (first last : Z) (w : world) :
  parsed_request msg = Ok (first, last) ->
  let w' := snd (handle_request env msg w) in
  (0 < last -> 50 < last - first ->
     fetched w' = fetched w ++ [(last - 50, last)])
  /\ (last < 0 -> fetched w' = fetched w ++ [(last - 50, last)])
  /\ (~ (0 < last /\ 50 < last - first) -> ~ last < 0 ->
        fetched w' = fetched w ++ [(first, last)]).
Proof.
  intros H. cbv zeta. rewrite (@handle_request_run env msg first last w H).
  cbn [snd fetched]. unfold fetched_first.
  destruct (Z.gtb_spec last 0), (Z.gtb_spec (last - 50) first),
    (Z.ltb_spec last 0); cbn [andb orb];
    repeat split; intros; try reflexivity; lia.
Qed.





(** A timeout on which the client stream has nothing to deliver. *)
Definition idle_timeout (env : io) : Prop :=
  ready_fd env < 0 /\ websocket_recv_nb env = Some [].



(** C6. When the Redis descriptor is the ready one: a frame whose first
    item is not [b'message'] is dropped, nothing is sent and the loop goes
    on; of a frame [[b'message', channel, payload]] exactly the payload is
    passed to [uwsgi.websocket_send], unchanged. *)
Theorem redis_frame_filtered_or_forwarded (s : session) (env : io) (w : world) :
  ready_fd env > -1 ->
  ready_fd env <> websocket_fd s ->
  ready_fd env = redis_fd s ->
  (forall kind items,
      parse_response env = kind :: items -> kind <> RBytes b_message ->
      iteration s env w = (Ok WAITING, w))
  /\ (forall chan payload,
        parse_response env = [RBytes b_message; chan; RBytes payload] ->
        iteration s env w
        = (if send_fails env then Raise IOError else Ok WAITING,
           mk_world (db w) (fetched w) (sent w ++ [WsBytes payload]))).
Proof.
  intros Hready Hws Hredis. unfold ChatApp.iteration.
  destruct (Z.gtb_spec (ready_fd env) (-1)); [|lia].
  rewrite (proj2 (Z.eqb_neq _ _) Hws), (proj2 (Z.eqb_eq _ _) Hredis).
  split.
  - intros kind items Hresp Hkind. rewrite Hresp.
    unfold bind, lift, resp_item. cbn [nth_error].
    assert (Hno : is_message kind = false).
    { destruct kind as [b| |]; try reflexivity.
      unfold is_message, bytes_eqb.
      destruct (list_eq_dec byte_eq_dec b b_message); [congruence|reflexivity]. }
    now rewrite Hno.
  - intros chan payload Hresp. rewrite Hresp.
    unfold bind, lift, resp_item, forward, websocket_send. cbn [nth_error].
    change (is_message (RBytes b_message)) with true. cbv iota.
    destruct (send_fails env); reflexivity.
Qed.

(** C7. Through any number of consecutive timeouts on which the client
    stream delivers no frame and reports no failure, the session is not
    terminated: nothing is fetched, nothing is sent, the loop is still
    [WAITING] in the state it started from, and it goes on to serve whatever
    comes next. *)
Theorem keepalive_timeouts_keep_waiting
  (s : session) (envs rest : list io) (w : world) :
  Forall idle_timeout envs ->
  loop s envs w = (Ok WAITING, w)
  /\ loop s (envs ++ rest) w = loop s rest w.
Proof.
  intro H.
  assert (Hstep : forall env tail, idle_timeout env ->
                    loop s (env :: tail) w = loop s tail w).
  { intros env tail [Hfd Hrecv]. cbn [ChatApp.loop]. unfold bind at 1.
    assert (Hit : iteration s env w = (Ok WAITING, w)).
    { unfold ChatApp.iteration.
      destruct (Z.gtb_spec (ready_fd env) (-1)); [lia|].
      unfold try_except_IOError, bind, recv_and_handle. now rewrite Hrecv. }
    now rewrite Hit. }
  induction H as [|env envs Henv _ [IH1 IH2]]; [split; reflexivity|].
  split.
  - now rewrite Hstep.
  - cbn [app]. now rewrite Hstep.
Qed.

End SessionProperties.

(* ================================================================== *)
(** ** Concrete runs *)

(** A quoted JSON name, as bytes on the wire. *)
Definition quoted (s : string) : bytes :=
  x22 :: list_byte_of_string s ++ [x22].

(** The client frame [{"first_id": first, "last_id": last}], the two numbers
    given in decimal. *)
Definition request_frame (first last : string) : bytes :=
  list_byte_of_string "{" ++ quoted "first_id" ++ list_byte_of_string ": "
  ++ list_byte_of_string first ++ list_byte_of_string ", "
  ++ quoted "last_id" ++ list_byte_of_string ": "
  ++ list_byte_of_string last ++ list_byte_of_string "}".

(** What [json.loads] makes of such a frame. *)
Definition request_value (first last : Z) : Json.value :=
  Json.JDict [(lit "first_id", Json.JInt first); (lit "last_id", Json.JInt last)].

(** [json.loads] restricted to the frames used below: the listed frames
    parse to the listed values, the text that is not JSON is rejected. *)
Definition loads_table : list (bytes * Json.value) :=
  [ (request_frame "0" "120", request_value 0 120);
    (request_frame "0" "-1", request_value 0 (-1));
    (request_frame "700" "-1", request_value 700 (-1));
    (request_frame "5" "20", request_value 5 20);
    (list_byte_of_string "{}", Json.JDict []) ].

Definition table_loads (msg : bytes) : option Json.value :=
  match find (fun kv => bytes_eqb (fst kv) msg) loads_table with
  | Some kv => Some (snd kv)
  | None => None
  end.

(** No field of these frames is a string, so [int] on a [str] is not
    reached. *)
Definition no_int_of_str (s : pystr) : option Z := None.

Definition the_session : session := mk_session 3 4.

(** The client stream is ready and delivers [msg]. *)
Definition client_sends (msg : bytes) : io := mk_io 3 (Some msg) [] false.

(** A timeout with nothing to read. *)
Definition quiet_timeout : io := mk_io (-1) (Some []) [] false.

(** Redis is ready and delivers [frame]. *)
Definition redis_delivers (frame : list resp) : io := mk_io 4 (Some []) frame false.

Definition noon : datetime := mk_datetime 2023 1 21 12 0 0.

(** A store holding [n] messages, ingested one after the other. *)
Definition store_of (n : nat) : world :=
  snd (posts (repeat ([(lit "content", lit "hi")], noon) n) initial_world).

Lemma backfill_window_witness :
  fetched (snd (handle_request table_loads no_int_of_str
                  (client_sends (request_frame "0" "120"))
                  (request_frame "0" "120") (store_of 3)))
  = fetched (store_of 3) ++ [(120 - 50, 120)].
Proof.
  refine (proj1 (@backfill_window table_loads no_int_of_str
                   (client_sends (request_frame "0" "120"))
                   (request_frame "0" "120") 0 120 (store_of 3) _) _ _).
  - reflexivity.
  - lia.
  - lia.
Defined.


(** C2, at the request of the specification itself: with 121 messages
    stored, the request [first_id = 0, last_id = 120] is served from the
    range 70..120 and the batch sent holds 51 messages, the ids 71 to 121. *)
Theorem backfill_0_120_sends_51_messages :
  let w := store_of 121 in
  let msg := request_frame "0" "120" in
  let out := handle_request table_loads no_int_of_str (client_sends msg) msg w in
  let batch := lrange_list (messages_key (db w)) 70 120 in
  fst out = Ok tt
  /\ fetched (snd out) = [(70, 120)]
  /\ sent (snd out) = [WsText (encode_messages batch)]
  /\ List.length batch = 51%nat
  /\ List.map id batch = List.map Z.of_nat (seq 71 51).
Proof.
  cbv zeta.
  rewrite (@handle_request_run table_loads no_int_of_str
             (client_sends (request_frame "0" "120"))
             (request_frame "0" "120") 0 120 (store_of 121) eq_refl).
  repeat split; vm_compute; reflexivity.
Qed.



(** The acknowledgment Redis sends after [SUBSCRIBE]. *)
Definition subscribe_ack : list resp :=
  [RBytes (list_byte_of_string "subscribe");
   RBytes (list_byte_of_string "messages"); RInt 1].

Definition data_frame (payload : bytes) : list resp :=
  [RBytes b_message; RBytes (list_byte_of_string "messages"); RBytes payload].

Lemma redis_frame_filtered_or_forwarded_witness :
  iteration table_loads no_int_of_str the_session
    (redis_delivers subscribe_ack) (store_of 1)
  = (Ok WAITING, store_of 1)
  /\ iteration table_loads no_int_of_str the_session
       (redis_delivers (data_frame (list_byte_of_string "[]"))) (store_of 1)
     = (Ok WAITING,
        mk_world (db (store_of 1)) (fetched (store_of 1))
          (sent (store_of 1) ++ [WsBytes (list_byte_of_string "[]")])).
Proof.
  split.
  - apply (proj1 (@redis_frame_filtered_or_forwarded table_loads no_int_of_str
                    the_session (redis_delivers subscribe_ack) (store_of 1)
                    eq_refl ltac:(discriminate) eq_refl)
             (RBytes (list_byte_of_string "subscribe"))
             [RBytes (list_byte_of_string "messages"); RInt 1]).
    + reflexivity.
    + discriminate.
  - apply (proj2 (@redis_frame_filtered_or_forwarded table_loads no_int_of_str
                    the_session
                    (redis_delivers (data_frame (list_byte_of_string "[]")))
                    (store_of 1) eq_refl ltac:(discriminate) eq_refl)
             (RBytes (list_byte_of_string "messages"))
             (list_byte_of_string "[]")).
    reflexivity.
Defined.

Lemma keepalive_timeouts_keep_waiting_witness :
  loop table_loads no_int_of_str the_session
    [quiet_timeout; quiet_timeout; quiet_timeout] (store_of 2)
  = (Ok WAITING, store_of 2).
Proof.
  refine (proj1 (@keepalive_timeouts_keep_waiting table_loads no_int_of_str
                   the_session [quiet_timeout; quiet_timeout; quiet_timeout]
                   [] (store_of 2) _)).
  repeat constructor.
Defined.

(* ------------------------------------------------------------------ *)
(** *** Sanity checks of the embedding *)

Example replace_non_overlapping :
  replace (lit "ab") (lit "X") (lit "cababab-abb") = lit "cXXX-Xb"
  /\ replace (lit "aa") (lit "b") (lit "aaa") = lit "ba"
  /\ replace [] (lit "-") (lit "abc") = lit "-a-b-c-".
Proof. repeat split; reflexivity. Qed.

Example str_decimal :
  str 1203 = lit "1203" /\ str 0 = lit "0" /\ str (-45) = lit "-45".
Proof. repeat split; reflexivity. Qed.

Example zfill_pads_after_sign :
  zfill 10 (str 42) = lit "0000000042"
  /\ zfill 10 (str (-5)) = lit "-000000005"
  /\ zfill 10 (str 12345678901) = lit "12345678901".
Proof. repeat split; reflexivity. Qed.

Example escape_ampersand_first :
  Html.escape (lit "&lt;<>'") = lit "&amp;lt;&lt;&gt;&#x27;".
Proof. reflexivity. Qed.

Example lrange_inclusive_and_tail_relative :
  lrange_list [1; 2; 3; 4; 5] 1 3 = [2; 3; 4]
  /\ lrange_list [1; 2; 3; 4; 5] (-2) (-1) = [4; 5]
  /\ lrange_list [1; 2; 3; 4; 5] (-51) (-1) = [1; 2; 3; 4; 5]
  /\ lrange_list [1; 2; 3; 4; 5] 3 100 = [4; 5]
  /\ lrange_list [1; 2; 3; 4; 5] 4 2 = []
  /\ lrange_list [1; 2; 3; 4; 5] 0 (-1) = [1; 2; 3; 4; 5].
Proof. repeat split; reflexivity. Qed.

Example strftime_c_locale :
  strftime_x_X (mk_datetime 2023 1 21 14 5 9) = lit "01/21/23 14:05:09".
Proof. reflexivity. Qed.

(** One message ingested, then the request [first_id = 0, last_id = -1]:
    the reply is a batch of that one message. *)
Example ingest_then_backfill :
  let w := snd (post [(lit "name", lit "A"); (lit "content", lit "hi")] noon
                  initial_world) in
  let msg := request_frame "0" "-1" in
  sent (snd (handle_request table_loads no_int_of_str (client_sends msg) msg w))
  = [WsText
       (Json.dumps
          [[ (lit "id", lit "0000000001"); (lit "name", lit "A");
             (lit "email", lit "janes@yorku.ca");
             (lit "date", lit "01/21/23 12:00:00");
             (lit "topic", lit "chat"); (lit "content", lit "hi") ]])].
Proof. vm_compute. reflexivity. Qed.

Lemma ingest_ids_gapless_witness :
  id (set_id (new_message [(lit "content", lit "hi")] noon) 2) = Z.of_nat 1 + 1.
Proof.
  refine (proj2 (proj2 (proj2 (proj2
            (ingest_ids_gapless (repeat ([(lit "content", lit "hi")], noon) 3)))))
            1%nat _ _).
  reflexivity.
Defined.

(* ================================================================== *)
(** ** Further properties of the encoder *)

(** A character-by-character encoding whose code words are non-empty and
    never start one another loses nothing. *)
Lemma flat_map_code_injective {A B} (f : A -> list B) :
  (forall x, f x <> []) ->
  (forall x y u v, f x ++ u = f y ++ v -> x = y) ->
  forall s t, flat_map f s = flat_map f t -> s = t.
Proof.
  intros Hne Hcode. induction s as [|x s IH]; intros [|y t] H; cbn [flat_map] in H.
  - reflexivity.
  - exfalso. symmetry in H. apply app_eq_nil in H. now apply (Hne y).
  - exfalso. apply app_eq_nil in H. now apply (Hne x).
  - pose proof (Hcode _ _ _ _ H) as ->.
    apply app_inv_head in H. f_equal. now apply IH.
Qed.

Ltac split_char x :=
  destruct (N.eqb_spec x 38) as [->|?];
  [|destruct (N.eqb_spec x 60) as [->|?];
    [|destruct (N.eqb_spec x 62) as [->|?];
      [|destruct (N.eqb_spec x 34) as [->|?];
        [|destruct (N.eqb_spec x 39) as [->|?]]]]].

Lemma escape_char_nonempty (x : char) : escape_char x <> [].
Proof. unfold escape_char. split_char x; discriminate. Qed.

Lemma escape_char_code (x y : char) (u v : pystr) :
  escape_char x ++ u = escape_char y ++ v -> x = y.
Proof.
  unfold escape_char. split_char x; split_char y; intro H; cbn in H;
    try reflexivity; try discriminate H;
    injection H; intros; subst; congruence.
Qed.

Lemma content_char_nonempty (x : char) : content_char x <> [].
Proof.
  unfold content_char. destruct (x =? 10)%N;
    [discriminate | apply escape_char_nonempty].
Qed.

Lemma content_char_code (x y : char) (u v : pystr) :
  content_char x ++ u = content_char y ++ v -> x = y.
Proof.
  unfold content_char.
  destruct (N.eqb_spec x 10) as [->|Hx], (N.eqb_spec y 10) as [->|Hy].
  - reflexivity.
  - unfold escape_char. split_char y; intro H; cbn in H;
      try discriminate H; injection H; intros; subst; congruence.
  - unfold escape_char. split_char x; intro H; cbn in H;
      try discriminate H; injection H; intros; subst; congruence.
  - apply escape_char_code.
Qed.

(** X1. [html.escape] loses no information: two texts with the same escaped
    form are the same text. *)
Theorem escape_injective (s t : pystr) :
  Html.escape s = Html.escape t -> s = t.
Proof.
  rewrite !escape_flat_map.
  apply flat_map_code_injective;
    [exact escape_char_nonempty | exact escape_char_code].
Qed.

Lemma escape_injective_witness : lit "a<b" = lit "a<b".
Proof. apply (@escape_injective (lit "a<b") (lit "a<b")). reflexivity. Defined.

(** X2. The encoded [content] field determines the content: escaping and the
    newline replacement together are still one-to-one. *)
Theorem content_field_injective (s t : pystr) :
  content_field s = content_field t -> s = t.
Proof.
  rewrite !content_field_flat_map.
  apply flat_map_code_injective;
    [exact content_char_nonempty | exact content_char_code].
Qed.

Lemma content_field_injective_witness :
  lit "x" ++ 10%N :: lit "<br>" = lit "x" ++ 10%N :: lit "<br>".
Proof.
  apply (@content_field_injective (lit "x" ++ 10%N :: lit "<br>")
           (lit "x" ++ 10%N :: lit "<br>")).
  reflexivity.
Defined.

(** X3. The text [html.escape] returns holds none of the characters
    [<], [>], double quote and single quote. *)
Theorem escape_leaves_no_delimiter (s : pystr) (c : char) :
  In c (Html.escape s) ->
  c <> 60%N /\ c <> 62%N /\ c <> 34%N /\ c <> 39%N.
Proof.
  rewrite escape_flat_map, in_flat_map. intros [x [_ Hc]]. revert Hc.
  unfold escape_char. split_char x; cbn;
    intuition (subst; try discriminate; try congruence).
Qed.

Lemma escape_leaves_no_delimiter_witness :
  38%N <> 60%N /\ 38%N <> 62%N /\ 38%N <> 34%N /\ 38%N <> 39%N.
Proof.
  apply (@escape_leaves_no_delimiter [34%N; 60%N] 38%N).
  cbn. left. reflexivity.
Defined.

(** Printable ASCII, the range [json.dumps] keeps as it is. *)
Definition printable (c : char) : Prop := (32 <= c <= 126)%N.

Lemma hexdigit_printable (d : N) : (d < 16)%N -> printable (Json.hexdigit d).
Proof.
  unfold printable, Json.hexdigit. intro H.
  destruct (N.ltb_spec d 10); lia.
Qed.

Lemma hex4_printable (n : N) : Forall printable (Json.hex4 n).
Proof.
  unfold Json.hex4.
  repeat constructor; apply hexdigit_printable; apply N.mod_lt; discriminate.
Qed.

Lemma lit_u_printable : Forall printable (lit "u").
Proof. repeat constructor; unfold printable; cbn; lia. Qed.

Lemma json_escape_char_printable (c : char) : Forall printable (Json.escape_char c).
Proof.
  unfold Json.escape_char, Json.backslash.
  repeat match goal with
         | |- context [(c =? ?k)%N] => destruct (N.eqb_spec c k)
         end;
    try (repeat constructor; unfold printable; cbn; lia).
  destruct (N.leb_spec 32 c), (N.leb_spec c 126); cbn [andb];
    try (repeat constructor; unfold printable; lia);
    destruct (N.ltb_spec c 65536);
    repeat (first [ apply Forall_cons; [unfold printable; lia|]
                  | apply Forall_app; split
                  | apply hex4_printable
                  | apply lit_u_printable
                  | apply Forall_nil ]).
Qed.

Lemma dumps_str_printable (s : pystr) : Forall printable (Json.dumps_str s).
Proof.
  unfold Json.dumps_str.
  apply Forall_app; split; [repeat constructor; unfold printable; lia|].
  apply Forall_app; split; [|repeat constructor; unfold printable; lia].
  induction s as [|c s IH]; cbn [flat_map]; [constructor|].
  apply Forall_app; split; [apply json_escape_char_printable | exact IH].
Qed.

Lemma join_printable (sep : pystr) (parts : list pystr) :
  Forall printable sep -> Forall (Forall printable) parts ->
  Forall printable (Json.join sep parts).
Proof.
  intros Hsep. induction 1 as [|p parts Hp Hparts IH]; [constructor|].
  cbn [Json.join]. destruct parts as [|q parts]; [exact Hp|].
  apply Forall_app; split; [exact Hp|].
  apply Forall_app; split; [exact Hsep | exact IH].
Qed.

Lemma lit_printable_sep :
  Forall printable (lit ", ") /\ Forall printable (lit ": ")
  /\ Forall printable (lit "{") /\ Forall printable (lit "}")
  /\ Forall printable (lit "[") /\ Forall printable (lit "]").
Proof. repeat split; repeat constructor; unfold printable; cbn; lia. Qed.

Lemma dumps_dict_printable (items : list (pystr * pystr)) :
  Forall printable (Json.dumps_dict items).
Proof.
  destruct lit_printable_sep as [Hc [Hk [Ho [Hcl _]]]].
  unfold Json.dumps_dict.
  apply Forall_app; split; [exact Ho|].
  apply Forall_app; split; [|exact Hcl].
  apply join_printable; [exact Hc|].
  apply Forall_map, Forall_forall. intros kv _.
  apply Forall_app; split; [apply dumps_str_printable|].
  apply Forall_app; split; [exact Hk | apply dumps_str_printable].
Qed.

(** X4. Whatever the messages hold, the text [encode_messages] returns
    consists of printable ASCII characters only (code points 32 to 126): no
    raw control character, nothing outside ASCII. *)
Theorem encode_messages_printable_ascii (messages : list Message) :
  Forall printable (encode_messages messages).
Proof.
  destruct lit_printable_sep as [Hc [_ [_ [_ [Ho Hcl]]]]].
  unfold encode_messages, Json.dumps.
  apply Forall_app; split; [exact Ho|].
  apply Forall_app; split; [|exact Hcl].
  apply join_printable; [exact Hc|].
  apply Forall_map, Forall_forall. intros d _. apply dumps_dict_printable.
Qed.

(* ------------------------------------------------------------------ *)
(** *** Reading the [id] field back *)

(** The number a string of decimal digits stands for. *)
Definition decimal_value (s : pystr) : Z :=
  fold_left (fun acc c => 10 * acc + (Z.of_N c - 48)) s 0.

Lemma decimal_value_snoc (s : pystr) (d : Z) :
  0 <= d -> decimal_value (s ++ [digit d]) = 10 * decimal_value s + d.
Proof.
  intro Hd. unfold decimal_value. rewrite fold_left_app. cbn [fold_left].
  unfold digit. rewrite Z2N.id by lia.
  replace (48 + d - 48) with d by lia. reflexivity.
Qed.

Lemma decimal_value_digits_fuel (f : nat) :
  forall n, 0 <= n < 2 ^ (Z.of_nat f + 1) ->
    decimal_value (digits_fuel f n) = n.
Proof.
  assert (Hone : forall d, 0 <= d -> decimal_value [digit d] = d).
  { intros d Hd. change [digit d] with ([] ++ [digit d]).
    rewrite decimal_value_snoc by assumption. reflexivity. }
  induction f as [|f IH]; intros n Hn; cbn [digits_fuel].
  - change (2 ^ (Z.of_nat 0 + 1)) with 2 in Hn.
    rewrite Z.mod_small by lia. apply Hone. lia.
  - destruct (Z.ltb_spec n 10) as [Hlt|Hge]; [apply Hone; lia|].
    assert (Hpow : 2 ^ (Z.of_nat (S f) + 1) = 2 * 2 ^ (Z.of_nat f + 1)).
    { rewrite Nat2Z.inj_succ. rewrite <- Z.pow_succ_r by lia. f_equal; lia. }
    pose proof (Z.mod_pos_bound n 10 ltac:(lia)).
    rewrite decimal_value_snoc by lia.
    rewrite IH.
    + pose proof (Z.div_mod n 10 ltac:(lia)). lia.
    + split; [apply Z.div_pos; lia | apply Z.div_lt_upper_bound; lia].
Qed.

Lemma decimal_value_zeros (k : nat) (s : pystr) :
  decimal_value (repeat (digit 0) k ++ s) = decimal_value s.
Proof.
  unfold decimal_value. rewrite fold_left_app. f_equal.
  induction k as [|k IH]; [reflexivity|]. cbn [repeat fold_left]. exact IH.
Qed.

Lemma id_field_nonneg (n : Z) :
  0 <= n ->
  id_field n = repeat (digit 0) (10 - List.length (digits n)) ++ digits n.
Proof.
  intro Hn. unfold id_field.
  rewrite (escape_plain (zfill_plain 10 (str_plain n))).
  unfold str. destruct (Z.ltb_spec n 0); [lia|].
  apply zfill_digits;
    [apply digits_fuel_nonempty | apply digits_fuel_digits; assumption].
Qed.

(** X5. For every non-negative id, of any size, the encoded [id] field read
    as a decimal number is the id again; so two different ids never get the
    same [id] field. *)
Theorem id_field_round_trip :
  (forall n, 0 <= n -> decimal_value (id_field n) = n)
  /\ (forall a b, 0 <= a -> 0 <= b -> id_field a = id_field b -> a = b).
Proof.
  assert (H : forall n, 0 <= n -> decimal_value (id_field n) = n).
  { intros n Hn. rewrite id_field_nonneg, decimal_value_zeros by assumption.
    apply decimal_value_digits_fuel, digits_fuel_enough. assumption. }
  split; [exact H|].
  intros a b Ha Hb Heq.
  rewrite <- (H a Ha), <- (H b Hb). now rewrite Heq.
Qed.

Lemma id_field_round_trip_witness :
  decimal_value (id_field 12345678901) = 12345678901.
Proof. apply (proj1 id_field_round_trip 12345678901). lia. Defined.

(* ================================================================== *)
(** ** The store under ingest *)

(** What the comment in [post] asks of the database: the highest message id
    is the number of messages, and the message at 1-based position [k] has
    id [k]. *)
Definition consistent (d : redis_db) : Prop :=
  id_key d = Z.of_nat (List.length (messages_key d))
  /\ List.map id (messages_key d)
     = List.map Z.of_nat (seq 1 (List.length (messages_key d))).

(** Every stored message has been published once, in log order, as a batch
    of one. *)
Definition mirrored (d : redis_db) : Prop :=
  channel d = List.map (fun m => encode_messages [m]) (messages_key d).

Lemma seq_from_zero (a n : nat) :
  List.map Z.of_nat (seq a n)
  = List.map (fun k => Z.of_nat a + Z.of_nat k) (seq 0 n).
Proof.
  revert a. induction n as [|n IH]; intro a; [reflexivity|].
  cbn [seq List.map]. f_equal; [lia|].
  rewrite IH, <- (seq_shift n 0), map_map.
  apply map_ext. intro k. lia.
Qed.

(** X6. Ingest keeps the database consistent and only appends: from a
    consistent database, after any run of [post] calls the counter is again
    the length of the log, the ids are again the 1-based positions, and the
    messages stored before are still there, unchanged, at the front. *)
Theorem posts_keep_consistent (calls : list (request * datetime)) (w : world) :
  consistent (db w) ->
  let w' := snd (posts calls w) in
  consistent (db w')
  /\ List.length (messages_key (db w'))
     = (List.length (messages_key (db w)) + List.length calls)%nat
  /\ firstn (List.length (messages_key (db w))) (messages_key (db w'))
     = messages_key (db w).
Proof.
  intros [Hc Hids]. cbv zeta. rewrite posts_run. unfold consistent.
  cbv zeta. cbn [snd db id_key messages_key].
  assert (Hlen : List.length (messages_key (db w) ++ stamped (id_key (db w) + 1) calls)
                 = (List.length (messages_key (db w)) + List.length calls)%nat).
  { now rewrite length_app, stamped_length. }
  repeat split.
  - rewrite Hlen, Hc. lia.
  - rewrite Hlen, map_app, seq_app, map_app, Hids. f_equal.
    rewrite stamped_ids, Hc, seq_from_zero.
    apply map_ext. intro k. lia.
  - exact Hlen.
  - rewrite firstn_app, Nat.sub_diag, firstn_O, app_nil_r.
    apply firstn_all.
Qed.

Lemma posts_keep_consistent_witness :
  consistent (db (store_of 2)).
Proof.
  apply (@posts_keep_consistent
           (repeat ([(lit "content", lit "hi")], noon) 2) initial_world).
  split; reflexivity.
Defined.

(** X7. Ingest keeps the broadcasts in step with the log: if the payloads
    published so far are the one-message encodings of the stored messages,
    in order, they still are after any run of [post] calls. *)
Theorem posts_keep_mirrored (calls : list (request * datetime)) (w : world) :
  mirrored (db w) -> mirrored (db (snd (posts calls w))).
Proof.
  unfold mirrored. intro H. rewrite posts_run.
  cbn [snd db channel messages_key]. now rewrite map_app, H.
Qed.

Lemma posts_keep_mirrored_witness : mirrored (db (store_of 2)).
Proof.
  apply (@posts_keep_mirrored
           (repeat ([(lit "content", lit "hi")], noon) 2) initial_world).
  reflexivity.
Defined.

(* ------------------------------------------------------------------ *)
(** *** Ranges of the log *)

Lemma firstn_seq (n start len : nat) :
  firstn n (seq start len) = seq start (Nat.min n len).
Proof.
  revert start len. induction n as [|n IH]; intros start [|len];
    try reflexivity.
  cbn [Nat.min seq firstn]. now rewrite IH.
Qed.

(** A range inside the list. *)
Lemma lrange_list_inside {A} (l : list A) (a b : Z) :
  0 <= a <= b -> b < Z.of_nat (List.length l) ->
  lrange_list l a b = firstn (Z.to_nat (b - a + 1)) (skipn (Z.to_nat a) l).
Proof.
  intros Hab Hb. unfold lrange_list.
  set (llen := Z.of_nat (List.length l)) in *.
  destruct (Z.ltb_spec a 0); [lia|]. destruct (Z.ltb_spec b 0); [lia|].
  destruct (Z.ltb_spec a 0); [lia|].
  rewrite Z.gtb_ltb, !Z.geb_leb.
  destruct (Z.ltb_spec b a); [lia|]. destruct (Z.leb_spec llen a); [lia|].
  destruct (Z.leb_spec llen b); [lia|]. reflexivity.
Qed.

(** The range from 51 before the end to the end. *)
Lemma lrange_list_tail {A} (l : list A) :
  lrange_list l (-51) (-1) = skipn (List.length l - 51) l.
Proof.
  unfold lrange_list.
  set (llen := Z.of_nat (List.length l)).
  assert (Hl : llen = Z.of_nat (List.length l)) by reflexivity.
  change (-51 <? 0) with true. change (-1 <? 0) with true. cbv iota.
  rewrite Z.gtb_ltb, !Z.geb_leb.
  destruct l as [|x l'] eqn:El; [reflexivity|]. rewrite <- El in *.
  assert (0 < llen) by (rewrite Hl, El; cbn [List.length]; lia).
  destruct (Z.ltb_spec (llen + -51) 0).
  - destruct (Z.ltb_spec (llen + -1) 0); [lia|].
    destruct (Z.leb_spec llen 0); [lia|]. cbn [orb].
    destruct (Z.leb_spec llen (llen + -1)); [lia|].
    replace (List.length l - 51)%nat with 0%nat by lia.
    change (Z.to_nat 0) with 0%nat. cbn [skipn].
    apply firstn_all2. lia.
  - destruct (Z.ltb_spec (llen + -1) (llen + -51)); [lia|].
    destruct (Z.leb_spec llen (llen + -51)); [lia|]. cbn [orb].
    destruct (Z.leb_spec llen (llen + -1)); [lia|].
    replace (Z.to_nat (llen + -51)) with (List.length l - 51)%nat by lia.
    apply firstn_all2. rewrite length_skipn. lia.
Qed.



Lemma firstn_one_skipn {A} (l : list A) (n : nat) (x : A) :
  nth_error l n = Some x -> firstn 1 (skipn n l) = [x].
Proof.
  revert l. induction n as [|n IH]; intros [|y l] H; try discriminate.
  - injection H as ->. reflexivity.
  - cbn [skipn]. now apply IH.
Qed.

(* ================================================================== *)
(** ** Backfill against the store *)

Section Backfill.

Variable json_loads : bytes -> option Json.value.
Variable int_of_str : pystr -> option Z.

Local Abbreviation handle_request := (handle_request json_loads int_of_str).
Local Abbreviation parsed_request := (parsed_request json_loads int_of_str).

(** X8. On a consistent store, a request [{first_id: a, last_id: b}] with
    [0 <= a <= b], [b - a <= 50] and [b] below the number of stored messages
    is answered with the messages whose ids are [a+1], ..., [b+1]: the two
    numbers are used as 0-based positions, one less than the ids. *)
Theorem backfill_positions_are_ids_minus_one
  (env : io) (msg : bytes) (a b : Z) (w : world) :
  parsed_request msg = Ok (a, b) ->
  consistent (db w) ->
  0 <= a <= b -> b - a <= 50 ->
  b < Z.of_nat (List.length (messages_key (db w))) ->
  exists batch,
    sent (snd (handle_request env msg w))
    = sent w ++ [WsText (encode_messages batch)]
    /\ List.map id batch
       = List.map Z.of_nat (seq (Z.to_nat a + 1) (Z.to_nat (b - a) + 1)).
Proof.
  intros Hreq [_ Hids] Hab Hspan Hb.
  rewrite (@handle_request_run json_loads int_of_str env msg a b w Hreq).
  cbv zeta. cbn [snd sent].
  assert (Hf : fetched_first a b = a).
  { unfold fetched_first.
    destruct (Z.gtb_spec b 0), (Z.gtb_spec (b - 50) a), (Z.ltb_spec b 0);
      cbn [andb orb]; lia. }
  rewrite Hf, lrange_list_inside by lia.
  eexists. split; [reflexivity|].
  rewrite <- firstn_map, <- skipn_map, Hids.
  rewrite skipn_map, firstn_map, skipn_seq, firstn_seq.
  f_equal. f_equal; lia.
Qed.

(** X9. Whatever its [first_id], a request with [last_id = -1] is answered
    with the newest messages of the log, in log order: all of them when
    there are at most 51, the last 51 otherwise. *)
Theorem backfill_tail_is_newest_51
  (env : io) (msg : bytes) (first : Z) (w : world) :
  parsed_request msg = Ok (first, -1) ->
  let log := messages_key (db w) in
  sent (snd (handle_request env msg w))
  = sent w ++ [WsText (encode_messages (skipn (List.length log - 51) log))].
Proof.
  intro Hreq. cbv zeta.
  rewrite (@handle_request_run json_loads int_of_str env msg first (-1) w Hreq).
  cbv zeta. cbn [snd sent].
  assert (Hf : fetched_first first (-1) = -51).
  { unfold fetched_first. change (-1 <? 0) with true.
    now rewrite orb_true_r. }
  now rewrite Hf, lrange_list_tail.
Qed.

(** X10. Backfill and broadcast agree: when the published payloads mirror
    the log, a request for the single position [i] (both numbers equal to
    [i], a position that exists) is answered with exactly the text that was
    published when that message was ingested. *)
Theorem backfill_one_equals_broadcast
  (env : io) (msg : bytes) (i : Z) (w : world) :
  parsed_request msg = Ok (i, i) ->
  mirrored (db w) ->
  0 <= i < Z.of_nat (List.length (messages_key (db w))) ->
  exists payload,
    nth_error (channel (db w)) (Z.to_nat i) = Some payload
    /\ sent (snd (handle_request env msg w)) = sent w ++ [WsText payload].
Proof.
  intros Hreq Hmir Hi.
  rewrite (@handle_request_run json_loads int_of_str env msg i i w Hreq).
  cbv zeta. cbn [snd sent].
  assert (Hf : fetched_first i i = i).
  { unfold fetched_first.
    destruct (Z.gtb_spec i 0), (Z.gtb_spec (i - 50) i), (Z.ltb_spec i 0);
      cbn [andb orb]; lia. }
  rewrite Hf, lrange_list_inside by lia.
  destruct (nth_error (messages_key (db w)) (Z.to_nat i)) as [m|] eqn:Em.
  - exists (encode_messages [m]). split.
    + rewrite Hmir.
      exact (map_nth_error (fun m => encode_messages [m]) _ _ Em).
    + replace (Z.to_nat (i - i + 1)) with 1%nat by lia.
      now rewrite (firstn_one_skipn _ _ Em).
  - exfalso. apply nth_error_None in Em. lia.
Qed.



End Backfill.

Lemma backfill_positions_are_ids_minus_one_witness :
  exists batch,
    sent (snd (handle_request table_loads no_int_of_str
                 (client_sends (request_frame "5" "20"))
                 (request_frame "5" "20") (store_of 30)))
    = sent (store_of 30) ++ [WsText (encode_messages batch)]
    /\ List.map id batch
       = List.map Z.of_nat (seq (Z.to_nat 5 + 1) (Z.to_nat (20 - 5) + 1)).
Proof.
  apply (@backfill_positions_are_ids_minus_one table_loads no_int_of_str
           (client_sends (request_frame "5" "20"))
           (request_frame "5" "20") 5 20 (store_of 30)).
  - reflexivity.
  - split; reflexivity.
  - lia.
  - lia.
  - vm_compute. reflexivity.
Defined.

Lemma backfill_tail_is_newest_51_witness :
  sent (snd (handle_request table_loads no_int_of_str
               (client_sends (request_frame "700" "-1"))
               (request_frame "700" "-1") (store_of 3)))
  = sent (store_of 3)
    ++ [WsText (encode_messages
                  (skipn (List.length (messages_key (db (store_of 3))) - 51)
                     (messages_key (db (store_of 3)))))].
Proof.
  apply (@backfill_tail_is_newest_51 table_loads no_int_of_str
           (client_sends (request_frame "700" "-1"))
           (request_frame "700" "-1") 700 (store_of 3)).
  reflexivity.
Defined.

(** [json.loads] restricted to the frame [{"first_id": 2, "last_id": 2}]. *)
Definition loads_2_2 (msg : bytes) : option Json.value :=
  if bytes_eqb msg (request_frame "2" "2") then Some (request_value 2 2)
  else None.

Lemma backfill_one_equals_broadcast_witness :
  exists payload,
    nth_error (channel (db (store_of 3))) (Z.to_nat 2) = Some payload
    /\ sent (snd (handle_request loads_2_2 no_int_of_str
                    (client_sends (request_frame "2" "2"))
                    (request_frame "2" "2") (store_of 3)))
       = sent (store_of 3) ++ [WsText payload].
Proof.
  apply (@backfill_one_equals_broadcast loads_2_2 no_int_of_str
           (client_sends (request_frame "2" "2"))
           (request_frame "2" "2") 2 (store_of 3)).
  - reflexivity.
  - reflexivity.
  - vm_compute. split; [discriminate | reflexivity].
Defined.



(* ================================================================== *)
(** ** The session as a whole *)

(** A computation that leaves the Redis database as it found it. *)
Definition keeps_db {A} (m : M A) : Prop :=
  forall w, db (snd (m w)) = db w.

Create HintDb keeps.

Lemma keeps_ret {A} (a : A) : keeps_db (ret a).
Proof. intro w. reflexivity. Qed.

Lemma keeps_raise {A} (e : exn) : keeps_db (@raise A e).
Proof. intro w. reflexivity. Qed.

Lemma keeps_lift {A} (r : result A) : keeps_db (lift r).
Proof. intro w. reflexivity. Qed.

Lemma keeps_bind {A B} (m : M A) (k : A -> M B) :
  keeps_db m -> (forall a, keeps_db (k a)) -> keeps_db (bind m k).
Proof.
  intros Hm Hk w. unfold bind. specialize (Hm w).
  destruct (m w) as [[a|e] w1]; cbn [snd] in *.
  - now rewrite Hk.
  - exact Hm.
Qed.

Lemma keeps_try {A} (body handler : M A) :
  keeps_db body -> keeps_db handler -> keeps_db (try_except_IOError body handler).
Proof.
  intros Hb Hh w. unfold try_except_IOError. specialize (Hb w).
  destruct (body w) as [[a|e] w1]; cbn [snd] in *; [exact Hb|].
  destruct (is_IOError e); cbn [snd]; [now rewrite Hh | exact Hb].
Qed.

Lemma keeps_lrange (first last : Z) : keeps_db (lrange first last).
Proof. intro w. reflexivity. Qed.

Lemma keeps_websocket_send (env : io) (payload : ws_payload) :
  keeps_db (websocket_send env payload).
Proof. intro w. unfold websocket_send. destruct (send_fails env); reflexivity. Qed.

#[local] Hint Resolve keeps_ret keeps_raise keeps_lift keeps_try keeps_lrange
  keeps_websocket_send : keeps.

Section SessionRuns.

Variable json_loads : bytes -> option Json.value.
Variable int_of_str : pystr -> option Z.

Local Abbreviation handle_request := (handle_request json_loads int_of_str).
Local Abbreviation parsed_request := (parsed_request json_loads int_of_str).
Local Abbreviation iteration := (iteration json_loads int_of_str).
Local Abbreviation loop := (loop json_loads int_of_str).

Lemma keeps_handle_request (env : io) (msg : bytes) :
  keeps_db (handle_request env msg).
Proof.
  unfold ChatApp.handle_request.
  repeat (apply keeps_bind; [auto with keeps | intro]).
  auto with keeps.
Qed.

Lemma keeps_iteration (s : session) (env : io) : keeps_db (iteration s env).
Proof.
  assert (Hbody : keeps_db (recv_and_handle json_loads int_of_str env ;;; ret WAITING)).
  { apply keeps_bind; [|auto with keeps].
    unfold recv_and_handle. apply keeps_bind.
    - destruct (websocket_recv_nb env); auto with keeps.
    - intros [|b msg]; [auto with keeps | apply keeps_handle_request]. }
  unfold ChatApp.iteration.
  destruct (ready_fd env >? -1); [|auto with keeps].
  destruct (ready_fd env =? websocket_fd s); [auto with keeps|].
  destruct (ready_fd env =? redis_fd s); [|auto with keeps].
  apply keeps_bind; [auto with keeps | intro kind].
  destruct (is_message kind); [|auto with keeps].
  apply keeps_bind; [auto with keeps | intro payload].
  apply keeps_bind; [|auto with keeps].
  unfold forward. destruct payload; auto with keeps.
Qed.

(** X13. A session never writes to the store: whatever events it is given,
    well-formed or not, and however it ends, the counter, the log and the
    published payloads are what they were. *)
Theorem session_never_writes_store (s : session) (envs : list io) (w : world) :
  db (snd (loop s envs w)) = db w.
Proof.
  revert w. induction envs as [|env envs IH]; intro w; [reflexivity|].
  cbn [ChatApp.loop]. unfold bind at 1.
  pose proof (keeps_iteration s env w) as Hit.
  destruct (iteration s env w) as [[[|]|e] w1]; cbn [snd] in *.
  - now rewrite IH.
  - exact Hit.
  - exact Hit.
Qed.

Lemma loop_cons (s : session) (env : io) (rest : list io) (w : world) :
  loop s (env :: rest) w
  = match iteration s env w with
    | (Ok WAITING, w1) => loop s rest w1
    | (Ok TERMINATED, w1) => (Ok TERMINATED, w1)
    | (Raise e, w1) => (Raise e, w1)
    end.
Proof.
  cbn [ChatApp.loop]. unfold bind at 1.
  destruct (iteration s env w) as [[[|]|e] w1]; reflexivity.
Qed.



(** X16. A timeout is handled exactly like a ready client stream: given the
    same outcome of [uwsgi.websocket_recv_nb] and of the send, the two
    branches of the loop do the same thing. *)
Theorem timeout_handled_like_ready_client
  (s : session) (env1 env2 : io) (w : world) :
  ready_fd env1 = websocket_fd s ->
  ready_fd env2 < 0 ->
  websocket_recv_nb env1 = websocket_recv_nb env2 ->
  send_fails env1 = send_fails env2 ->
  iteration s env1 w = iteration s env2 w.
Proof.
  destruct env1 as [fd1 recv1 resp1 fails1], env2 as [fd2 recv2 resp2 fails2].
  cbn [ready_fd websocket_recv_nb send_fails].
  intros Hfd1 Hfd2 <- <-.
  unfold ChatApp.iteration. cbn [ready_fd].
  destruct (Z.gtb_spec fd2 (-1)); [lia|].
  destruct (Z.gtb_spec fd1 (-1)); [|reflexivity].
  rewrite (proj2 (Z.eqb_eq _ _) Hfd1). reflexivity.
Qed.

(** Redis is ready and delivers a data frame carrying [payload]; the send
    succeeds. *)
Definition delivers (s : session) (env : io) (payload : bytes) : Prop :=
  ready_fd env = redis_fd s
  /\ send_fails env = false
  /\ exists chan, parse_response env = [RBytes b_message; chan; RBytes payload].

Lemma iteration_delivers (s : session) (env : io) (payload : bytes) (w : world) :
  redis_fd s > -1 -> redis_fd s <> websocket_fd s ->
  delivers s env payload ->
  iteration s env w
  = (Ok WAITING, mk_world (db w) (fetched w) (sent w ++ [WsBytes payload])).
Proof.
  intros Hpos Hne [Hfd [Hok [chan Hresp]]]. unfold ChatApp.iteration.
  rewrite Hfd.
  destruct (Z.gtb_spec (redis_fd s) (-1)); [|lia].
  rewrite (proj2 (Z.eqb_neq _ _) Hne), Z.eqb_refl, Hresp.
  unfold bind, lift, resp_item, forward, websocket_send. cbn [nth_error].
  change (is_message (RBytes b_message)) with true. cbv iota.
  now rewrite Hok.
Qed.

(** X17. Broadcasts reach the client in order, one send each: a run of data
    frames delivered by Redis makes the session send exactly their
    payloads, in the order received, and stay [WAITING]. *)
Theorem broadcasts_forwarded_in_order
  (s : session) (envs : list io) (payloads : list bytes) (w : world) :
  redis_fd s > -1 -> redis_fd s <> websocket_fd s ->
  Forall2 (delivers s) envs payloads ->
  loop s envs w
  = (Ok WAITING,
     mk_world (db w) (fetched w) (sent w ++ List.map WsBytes payloads)).
Proof.
  intros Hpos Hne H. revert w.
  induction H as [|env payload envs payloads Hd _ IH]; intro w.
  - destruct w as [d f st]. cbn. now rewrite app_nil_r.
  - rewrite loop_cons, (iteration_delivers w Hpos Hne Hd), IH.
    cbn [db fetched sent List.map]. now rewrite <- app_assoc.
Qed.

End SessionRuns.

Section SessionRequests.

Variable json_loads : bytes -> option Json.value.
Variable int_of_str : pystr -> option Z.

Local Abbreviation handle_request := (handle_request json_loads int_of_str).
Local Abbreviation parsed_request := (parsed_request json_loads int_of_str).
Local Abbreviation loop := (loop json_loads int_of_str).



End SessionRequests.

(* ------------------------------------------------------------------ *)
(** *** Concrete runs of the session *)


(** The client stream delivers [msg]; sending the reply fails. *)
Definition client_sends_then_leaves (msg : bytes) : io :=
  mk_io 3 (Some msg) [] true.

(** A timeout on which a frame turns out to be pending. *)
Definition timeout_with_frame (msg : bytes) : io := mk_io (-1) (Some msg) [] false.



Lemma timeout_handled_like_ready_client_witness :
  iteration table_loads no_int_of_str the_session
    (client_sends (request_frame "5" "20")) (store_of 30)
  = iteration table_loads no_int_of_str the_session
      (timeout_with_frame (request_frame "5" "20")) (store_of 30).
Proof.
  apply (@timeout_handled_like_ready_client table_loads no_int_of_str
           the_session (client_sends (request_frame "5" "20"))
           (timeout_with_frame (request_frame "5" "20")) (store_of 30)).
  - reflexivity.
  - reflexivity.
  - reflexivity.
  - reflexivity.
Defined.

Lemma broadcasts_forwarded_in_order_witness :
  loop table_loads no_int_of_str the_session
    [redis_delivers (data_frame (list_byte_of_string "[1]"));
     redis_delivers (data_frame (list_byte_of_string "[2]"))]
    (store_of 1)
  = (Ok WAITING,
     mk_world (db (store_of 1)) (fetched (store_of 1))
       (sent (store_of 1)
        ++ List.map WsBytes
             [list_byte_of_string "[1]"; list_byte_of_string "[2]"])).
Proof.
  apply (@broadcasts_forwarded_in_order table_loads no_int_of_str the_session).
  - reflexivity.
  - discriminate.
  - repeat constructor; eexists; reflexivity.
Defined.


